(** * A shallow embedding of [src/search/bst.rs] (crate [arboretum]).

    Values [V : PartialOrd] are taken at [Z], the instance the crate's tests
    and doc examples use.  Two views of the node graph are used:

    - [Tree]: the owning edges ([left], [right] are [Option<Rc<..>>] held by a
      single owner) form an inductive tree; every node also carries its
      allocation address [id] and its [parent] back-reference as an address.
      This is the view in which [insert], [contains] and [remove] are stated.
    - [Heap]: the [Rc<RefCell<Node>>] cells as a finite map from addresses to
      node records; a [Weak] parent resolves when its address is still
      allocated.  This is the view in which [shift_nodes] is stated, since it
      inspects back-references that may dangle. *)

From Stdlib Require Import ZArith List Sorted Lia.
From stdpp Require Import base gmap strings sorting.
Import ListNotations.
Open Scope Z_scope.

(** Addresses of [Rc] allocations. *)
Definition loc := nat.

Module Tree.

(** [struct Node<V> { parent, left, right, value }]; [Leaf] is [None]
    in a [MaybeLink] slot. *)
Inductive node : Type :=
| Leaf
| Node (id : loc) (parent : option loc) (left : node) (value : Z) (right : node).

(** [struct Bst<V> { root }], together with the allocator's next fresh
    address (each [Rc::new] returns a new address). *)
Record bst : Type := mk_bst { root : node; next : loc }.

Definition empty : bst := {| root := Leaf; next := 0%nat |}.

(** [Node::root_link]: parent [None], no children. *)
Definition root_link (a : loc) (value : Z) : node := Node a None Leaf value Leaf.

(** [Node::link(parent, value)]: parent [Some parent], no children. *)
Definition link (parent : loc) (a : loc) (value : Z) : node :=
  Node a (Some parent) Leaf value Leaf.

(** [deep_insert(node, value)]; [fresh] is the address [Rc::new] hands
    out for the new leaf.  The [Leaf] case is never reached: the caller
    passes a live [Link]. *)
Fixpoint deep_insert (fresh : loc) (n : node) (value : Z) : node :=
  match n with
  | Leaf => Leaf
  | Node i p l x r =>
      if x <=? value then
        match l with
        | Leaf => Node i p (link i fresh value) x r
        | _ => Node i p (deep_insert fresh l value) x r
        end
      else
        match r with
        | Leaf => Node i p l x (link i fresh value)
        | _ => Node i p l x (deep_insert fresh r value)
        end
  end.

(** [deep_find(node, value) -> MaybeLink<V>]: the matching node (a clone
    of its [Rc]) or [None]. *)
Fixpoint deep_find (n : node) (value : Z) : option node :=
  match n with
  | Leaf => None
  | Node _ _ l x r =>
      if x =? value then Some n
      else if x <? value then
        match l with
        | Leaf => None
        | _ => deep_find l value
        end
      else
        match r with
        | Leaf => None
        | _ => deep_find r value
        end
  end.

(** [deep_contains] *)
Definition deep_contains (n : node) (value : Z) : bool :=
  match deep_find n value with
  | None => false
  | Some _ => true
  end.

(** [deep_delete(bst, value)]: its body is empty. *)
Definition deep_delete (t : bst) (value : Z) : bst := t.

(** [Bst::insert] *)
Definition insert (t : bst) (value : Z) : bst :=
  match root t with
  | Leaf => {| root := root_link (next t) value; next := S (next t) |}
  | r => {| root := deep_insert (next t) r value; next := S (next t) |}
  end.

(** [Bst::contains] *)
Definition contains (t : bst) (value : Z) : bool :=
  match root t with
  | Leaf => false
  | r => deep_contains r value
  end.

(** [Bst::remove] *)
Definition remove (t : bst) (value : Z) : bst :=
  match root t with
  | Leaf => t
  | _ => deep_delete t value
  end.

(** Calls of the public API, and a run of them from [Bst::empty()]. *)
Inductive op : Type := Insert (v : Z) | Remove (v : Z).

Definition step (t : bst) (o : op) : bst :=
  match o with
  | Insert v => insert t v
  | Remove v => remove t v
  end.

Definition run (ops : list op) : bst := fold_left step ops empty.

(** Values stored, and the in-order traversal (left, node, right). *)
Fixpoint inorder (n : node) : list Z :=
  match n with
  | Leaf => []
  | Node _ _ l x r => inorder l ++ [x] ++ inorder r
  end.

Fixpoint height (n : node) : nat :=
  match n with
  | Leaf => 0%nat
  | Node _ _ l _ r => S (Nat.max (height l) (height r))
  end.

(** ** Invariants of the node graph *)

(** The comparison rule of [deep_insert]: a value [>=] the node's value goes
    left, a smaller one goes right. *)
Fixpoint ordered (n : node) : Prop :=
  match n with
  | Leaf => True
  | Node _ _ l x r =>
      Forall (fun y => x <= y) (inorder l) /\ Forall (fun y => y < x) (inorder r)
      /\ ordered l /\ ordered r
  end.

(** [c.parent] is the address of [n], for a child [c] of the node [n]
    with address [i]. *)
Definition parent_is (i : loc) (c : node) : Prop :=
  match c with
  | Leaf => True
  | Node _ p _ _ _ => p = Some i
  end.

Fixpoint parent_ok (n : node) : Prop :=
  match n with
  | Leaf => True
  | Node i _ l _ r => parent_is i l /\ parent_is i r /\ parent_ok l /\ parent_ok r
  end.

Fixpoint ids (n : node) : list loc :=
  match n with
  | Leaf => []
  | Node i _ l _ r => i :: ids l ++ ids r
  end.

(** Live addresses are pairwise distinct and below the allocator's next one,
    so a back-reference by address resolves to exactly one node. *)
Definition ids_ok (t : bst) : Prop :=
  NoDup (ids (root t)) /\ Forall (fun a => (a < next t)%nat) (ids (root t)).

(** ** Bounded-depth versions: every recursive call on a node spends one unit
    of [fuel]; [None] means the recursion would have gone deeper. *)
Fixpoint deep_insert_fuel (fuel : nat) (fresh : loc) (n : node) (value : Z)
  : option node :=
  match n with
  | Leaf => Some Leaf
  | Node i p l x r =>
      match fuel with
      | O => None
      | S fuel' =>
          if x <=? value then
            match l with
            | Leaf => Some (Node i p (link i fresh value) x r)
            | _ => option_map (fun l' => Node i p l' x r)
                     (deep_insert_fuel fuel' fresh l value)
            end
          else
            match r with
            | Leaf => Some (Node i p l x (link i fresh value))
            | _ => option_map (fun r' => Node i p l x r')
                     (deep_insert_fuel fuel' fresh r value)
            end
      end
  end.

Fixpoint deep_find_fuel (fuel : nat) (n : node) (value : Z) : option (option node) :=
  match n with
  | Leaf => Some None
  | Node _ _ l x r =>
      match fuel with
      | O => None
      | S fuel' =>
          if x =? value then Some (Some n)
          else if x <? value then
            match l with
            | Leaf => Some None
            | _ => deep_find_fuel fuel' l value
            end
          else
            match r with
            | Leaf => Some None
            | _ => deep_find_fuel fuel' r value
            end
      end
  end.

Definition insert_fuel (fuel : nat) (t : bst) (value : Z) : option bst :=
  match root t with
  | Leaf => Some {| root := root_link (next t) value; next := S (next t) |}
  | r => option_map (fun r' => {| root := r'; next := S (next t) |})
           (deep_insert_fuel fuel (next t) r value)
  end.

Definition contains_fuel (fuel : nat) (t : bst) (value : Z) : option bool :=
  match root t with
  | Leaf => Some false
  | r => option_map (fun o => match o with None => false | Some _ => true end)
           (deep_find_fuel fuel r value)
  end.

(** [deep_delete] is one call frame and does not recurse. *)
Definition remove_fuel (fuel : nat) (t : bst) (value : Z) : option bst :=
  match root t with
  | Leaf => Some t
  | _ => match fuel with O => None | S _ => Some (deep_delete t value) end
  end.

(** ** Further observations on trees *)

(** The nodes of a tree (every subtree rooted at a node). *)
Fixpoint subtrees (n : node) : list node :=
  match n with
  | Leaf => []
  | Node _ _ l _ r => n :: subtrees l ++ subtrees r
  end.

Definition node_value (n : node) : option Z :=
  match n with
  | Leaf => None
  | Node _ _ _ x _ => Some x
  end.

(** The root's back-reference is [None] ([Node::root_link]). *)
Definition root_unparented (n : node) : Prop :=
  match n with
  | Leaf => True
  | Node _ p _ _ _ => p = None
  end.

(** A degenerate tree in which no node has a right child. *)
Fixpoint left_spine (n : node) : Prop :=
  match n with
  | Leaf => True
  | Node _ _ l _ r => r = Leaf /\ left_spine l
  end.

Fixpoint n_inserts (ops : list op) : nat :=
  match ops with
  | [] => 0%nat
  | Insert _ :: ops' => S (n_inserts ops')
  | Remove _ :: ops' => n_inserts ops'
  end.

(** ** Lemmas *)

Lemma remove_id (t : bst) (v : Z) : remove t v = t.
Proof. unfold remove, deep_delete. by destruct (root t). Qed.

Lemma fold_step_ind (P : bst -> Prop) :
  (forall t v, P t -> P (insert t v)) ->
  forall ops t, P t -> P (fold_left step ops t).
Proof.
  intros Hins ops. induction ops as [|[v|v] ops IH]; intros t Ht; simpl; auto.
  apply IH. by rewrite remove_id.
Qed.

Lemma deep_insert_elems (f : loc) (n : node) (v y : Z) :
  n <> Leaf -> In y (inorder (deep_insert f n v)) <-> y = v \/ In y (inorder n).
Proof.
  induction n as [|i p l IHl x r IHr]; intros Hn; [congruence|].
  cbn [deep_insert]. destruct (x <=? v).
  - destruct l as [|i' p' l' x' r'].
    + cbn [inorder link app]. simpl. intuition.
    + cbn [inorder]. rewrite !in_app_iff, IHl by discriminate.
      cbn [inorder]. rewrite !in_app_iff. tauto.
  - destruct r as [|i' p' l' x' r'].
    + cbn [inorder link app]. rewrite !in_app_iff. simpl. intuition.
    + cbn [inorder]. rewrite !in_app_iff, IHr by discriminate.
      cbn [inorder]. rewrite !in_app_iff. tauto.
Qed.

Lemma deep_insert_Forall (P : Z -> Prop) (f : loc) (n : node) (v : Z) :
  n <> Leaf -> P v -> Forall P (inorder n) -> Forall P (inorder (deep_insert f n v)).
Proof.
  intros Hn Hv Hall. rewrite List.Forall_forall in *. intros y Hy.
  apply deep_insert_elems in Hy; [|done]. destruct Hy as [->|Hy]; auto.
Qed.

Lemma deep_insert_ordered (f : loc) (n : node) (v : Z) :
  ordered n -> ordered (deep_insert f n v).
Proof.
  induction n as [|i p l IHl x r IHr]; [done|].
  intros (Hl & Hr & Hol & Hor). cbn [deep_insert].
  destruct (x <=? v) eqn:Hxv.
  - apply Z.leb_le in Hxv. destruct l as [|i' p' l' x' r'].
    + simpl. repeat split; auto.
    + cbn [ordered]. repeat split; auto.
      apply deep_insert_Forall; auto; discriminate.
  - apply Z.leb_gt in Hxv. destruct r as [|i' p' l' x' r'].
    + simpl. repeat split; auto.
    + cbn [ordered]. repeat split; auto.
      apply deep_insert_Forall; auto; discriminate.
Qed.

Lemma insert_nonempty (t : bst) (v : Z) :
  root t <> Leaf ->
  insert t v = {| root := deep_insert (next t) (root t) v; next := S (next t) |}.
Proof. unfold insert. by destruct (root t). Qed.

Lemma insert_elems (t : bst) (v y : Z) :
  In y (inorder (root (insert t v))) <-> y = v \/ In y (inorder (root t)).
Proof.
  destruct (root t) eqn:E.
  - unfold insert. rewrite E. simpl. intuition.
  - rewrite <- E, insert_nonempty by (rewrite E; discriminate). simpl.
    apply deep_insert_elems. rewrite E; discriminate.
Qed.

Lemma insert_ordered (t : bst) (v : Z) :
  ordered (root t) -> ordered (root (insert t v)).
Proof.
  destruct (root t) eqn:E.
  - unfold insert. rewrite E. intros. simpl. repeat split; auto.
  - rewrite <- E, insert_nonempty by (rewrite E; discriminate). simpl.
    apply deep_insert_ordered.
Qed.

Lemma run_ordered (ops : list op) : ordered (root (run ops)).
Proof. unfold run. apply fold_step_ind; [apply insert_ordered|done]. Qed.

Lemma fold_step_elems (ops : list op) (t : bst) (y : Z) :
  In y (inorder (root (fold_left step ops t)))
  <-> In y (inorder (root t)) \/ In (Insert y) ops.
Proof.
  revert t. induction ops as [|o ops IH]; intros t; simpl; [tauto|].
  rewrite IH. destruct o as [v|v]; simpl.
  - rewrite insert_elems. split; [intros [[->|H]|H]; auto|].
    intros [H|[H|H]]; auto. left; left; congruence.
  - rewrite remove_id. split; [intros [H|H]; auto|].
    intros [H|[H|H]]; auto. discriminate.
Qed.

Lemma deep_find_correct (n : node) (v : Z) :
  ordered n -> is_Some (deep_find n v) <-> In v (inorder n).
Proof.
  induction n as [|i p l IHl x r IHr]; simpl; [split; [intros [? ?]; done|done]|].
  intros (Hl & Hr & Hol & Hor). rewrite List.Forall_forall in Hl, Hr.
  rewrite !in_app_iff. simpl.
  destruct (x =? v) eqn:Exv; [apply Z.eqb_eq in Exv; split; [auto|eauto]|].
  apply Z.eqb_neq in Exv.
  destruct (x <? v) eqn:Ltv.
  - apply Z.ltb_lt in Ltv.
    assert (~ In v (inorder r)) by (intros Hin; specialize (Hr _ Hin); lia).
    destruct l as [|i' p' l' x' r'].
    + simpl. split; [intros [? ?]; done|]. intros [[]|[?|?]]; [lia|done].
    + rewrite IHl by done. intuition.
  - apply Z.ltb_ge in Ltv.
    assert (~ In v (inorder l)) by (intros Hin; specialize (Hl _ Hin); lia).
    destruct r as [|i' p' l' x' r'].
    + simpl. split; [intros [? ?]; done|]. intros [?|[?|[]]]; [done|lia].
    + rewrite IHr by done. intuition.
Qed.

Lemma contains_nonempty (t : bst) (v : Z) :
  root t <> Leaf -> contains t v = deep_contains (root t) v.
Proof. unfold contains. by destruct (root t). Qed.

Lemma contains_correct (t : bst) (v : Z) :
  ordered (root t) -> contains t v = true <-> In v (inorder (root t)).
Proof.
  intros Ho. destruct (root t) eqn:E.
  - unfold contains. rewrite E. simpl. split; [discriminate|intros []].
  - rewrite <- E, contains_nonempty by (rewrite E; discriminate).
    rewrite <- E in Ho. pose proof (deep_find_correct (root t) v Ho) as Hf.
    unfold deep_contains. destruct (deep_find (root t) v).
    + split; [intros _; apply Hf; eauto|done].
    + split; [discriminate|]. intros H. apply Hf in H. by destruct H.
Qed.

Lemma StronglySorted_ge_app (l1 l2 : list Z) :
  StronglySorted Z.ge l1 -> StronglySorted Z.ge l2 ->
  (forall a b, In a l1 -> In b l2 -> a >= b) -> StronglySorted Z.ge (l1 ++ l2).
Proof.
  induction l1 as [|a l1 IH]; intros H1 H2 H; simpl; auto.
  inversion H1 as [|? ? Hs Hf]; subst. constructor.
  - apply IH; auto. intros a' b ? ?. apply H; simpl; auto.
  - apply Forall_app. split; auto. apply List.Forall_forall. intros b Hb.
    apply H; simpl; auto.
Qed.

Lemma ordered_sorted (n : node) : ordered n -> StronglySorted Z.ge (inorder n).
Proof.
  induction n as [|i p l IHl x r IHr]; simpl; [constructor|].
  intros (Hl & Hr & Hol & Hor). rewrite List.Forall_forall in Hl, Hr.
  apply StronglySorted_ge_app; auto.
  - simpl. constructor; auto. apply List.Forall_forall. intros b Hb.
    specialize (Hr _ Hb). lia.
  - intros a b Ha [<-|Hb]; [specialize (Hl _ Ha); lia|].
    specialize (Hl _ Ha). specialize (Hr _ Hb). lia.
Qed.

Lemma deep_insert_parent_is (i f : loc) (n : node) (v : Z) :
  parent_is i n -> parent_is i (deep_insert f n v).
Proof.
  destruct n as [|j p l x r]; [done|]. cbn [deep_insert].
  destruct (x <=? v); [destruct l|destruct r]; done.
Qed.

Lemma deep_insert_parent_ok (f : loc) (n : node) (v : Z) :
  parent_ok n -> parent_ok (deep_insert f n v).
Proof.
  induction n as [|i p l IHl x r IHr]; [done|].
  intros (Hl & Hr & Hol & Hor). cbn [deep_insert].
  destruct (x <=? v).
  - destruct l as [|i' p' l' x' r'].
    + simpl. repeat split; auto.
    + cbn [parent_ok]. repeat split; auto. by apply deep_insert_parent_is.
  - destruct r as [|i' p' l' x' r'].
    + simpl. repeat split; auto.
    + cbn [parent_ok]. repeat split; auto. by apply deep_insert_parent_is.
Qed.

Lemma deep_insert_ids (f : loc) (n : node) (v : Z) :
  n <> Leaf -> Permutation (ids (deep_insert f n v)) (f :: ids n).
Proof.
  induction n as [|i p l IHl x r IHr]; intros Hn; [congruence|].
  cbn [deep_insert]. destruct (x <=? v).
  - destruct l as [|i' p' l' x' r'].
    + simpl. apply perm_swap.
    + cbn [ids]. rewrite IHl by discriminate.
      cbn [ids app]. apply perm_swap.
  - destruct r as [|i' p' l' x' r'].
    + simpl. rewrite app_nil_r.
      symmetry. apply (Permutation_cons_app (i :: ids l) [] f).
      by rewrite app_nil_r.
    + cbn [ids]. rewrite IHr by discriminate.
      transitivity (i :: f :: (ids l ++ ids (Node i' p' l' x' r'))).
      * constructor. symmetry. apply Permutation_middle.
      * apply perm_swap.
Qed.

Lemma insert_ids_ok (t : bst) (v : Z) : ids_ok t -> ids_ok (insert t v).
Proof.
  intros [Hnd Hlt]. destruct (root t) eqn:E.
  - unfold insert. rewrite E. split; simpl.
    + constructor; [intros H; inversion H|constructor].
    + constructor; [lia|constructor].
  - rewrite <- E in Hnd, Hlt.
    rewrite insert_nonempty by (rewrite E; discriminate). split; simpl.
    + rewrite deep_insert_ids by (rewrite E; discriminate).
      constructor; [|done]. intros Hin%list_elem_of_In.
      rewrite List.Forall_forall in Hlt. specialize (Hlt _ Hin). lia.
    + rewrite deep_insert_ids by (rewrite E; discriminate).
      constructor; [lia|]. eapply List.Forall_impl; [|exact Hlt].
      simpl. intros; lia.
Qed.

Lemma deep_insert_fuel_height (k : nat) (f : loc) (n : node) (v : Z) :
  (height n <= k)%nat -> deep_insert_fuel k f n v = Some (deep_insert f n v).
Proof.
  revert k. induction n as [|i p l IHl x r IHr]; intros k Hk; [destruct k; reflexivity|].
  destruct k as [|k]; [simpl in Hk; lia|].
  simpl in Hk. cbn [deep_insert_fuel deep_insert]. destruct (x <=? v).
  - destruct l as [|i' p' l' x' r']; [done|].
    rewrite IHl by lia. done.
  - destruct r as [|i' p' l' x' r']; [done|].
    rewrite IHr by lia. done.
Qed.

Lemma deep_find_fuel_height (k : nat) (n : node) (v : Z) :
  (height n <= k)%nat -> deep_find_fuel k n v = Some (deep_find n v).
Proof.
  revert k. induction n as [|i p l IHl x r IHr]; intros k Hk; [destruct k; reflexivity|].
  destruct k as [|k]; [simpl in Hk; lia|].
  simpl in Hk. cbn [deep_find_fuel deep_find].
  destruct (x =? v); [done|]. destruct (x <? v).
  - destruct l as [|i' p' l' x' r']; [done|]. apply IHl. lia.
  - destruct r as [|i' p' l' x' r']; [done|]. apply IHr. lia.
Qed.

Example scenario_1 :
  contains (run [Insert 10; Insert 20; Insert 30]) 10 = true.
Proof. reflexivity. Qed.

Example scenario_3 :
  inorder (root (run (map Insert [50; 30; 70; 20; 40; 60; 80])))
  = [80; 70; 60; 50; 40; 30; 20].
Proof. reflexivity. Qed.

(** ** Claims about [Bst] *)

(** C1 (code_bug): the crate's test [bst_does_not_contain_item_removed_from_it]
    inserts 5, removes 5 and expects [contains(5) == false]; [deep_delete] has
    an empty body, so [contains(5)] is still [true]. *)
Theorem remove_leaves_value_present :
  contains (run [Insert 5]) 5 = true
  /\ contains (remove (run [Insert 5]) 5) 5 = true.
Proof. split; reflexivity. Qed.

(** C2: on every reachable tree, [contains(v)] is [true] exactly when some
    stored value equals [v]; and every inserted value is found after its
    insertion. *)
Theorem contains_iff_stored (ops : list op) (v : Z) :
  (contains (run ops) v = true <-> In v (inorder (root (run ops))))
  /\ (In (Insert v) ops -> contains (run ops) v = true).
Proof.
  assert (Hc := contains_correct (run ops) v (run_ordered ops)).
  split; [exact Hc|]. intros Hin. apply Hc.
  unfold run. apply fold_step_elems. by right.
Qed.

Lemma contains_iff_stored_witness :
  In (Insert 7) [Insert 3; Insert 7; Remove 3]
  /\ contains (run [Insert 3; Insert 7; Remove 3]) 7 = true.
Proof.
  assert (H : In (Insert 7) [Insert 3; Insert 7; Remove 3]) by (simpl; auto).
  split; [exact H|].
  exact (proj2 (contains_iff_stored [Insert 3; Insert 7; Remove 3] 7) H).
Defined.

(** C6: [insert] preserves parent consistency: every child's back-reference
    is the address of its parent; addresses stay distinct and below the
    allocator's next one, so each back-reference resolves to that parent. *)
Theorem insert_parent_consistent (t : bst) (v : Z) :
  parent_ok (root t) -> ids_ok t ->
  parent_ok (root (insert t v)) /\ ids_ok (insert t v).
Proof.
  intros Hp Hi. split; [|by apply insert_ids_ok].
  destruct (root t) eqn:E.
  - unfold insert. rewrite E. simpl. tauto.
  - rewrite <- E in Hp. rewrite insert_nonempty by (rewrite E; discriminate).
    by apply deep_insert_parent_ok.
Qed.

Lemma insert_parent_consistent_witness :
  parent_ok (root (run [Insert 5; Insert 3]))
  /\ ids_ok (run [Insert 5; Insert 3])
  /\ parent_ok (root (insert (run [Insert 5; Insert 3]) 8))
  /\ ids_ok (insert (run [Insert 5; Insert 3]) 8).
Proof.
  assert (Hp : parent_ok (root (run [Insert 5; Insert 3]))) by (simpl; tauto).
  assert (Hi : ids_ok (run [Insert 5; Insert 3])).
  { split; apply (bool_decide_unpack _); vm_compute; reflexivity. }
  destruct (insert_parent_consistent _ 8 Hp Hi) as [H1 H2].
  exact (conj Hp (conj Hi (conj H1 H2))).
Defined.

(** C7: after any sequence of inserts and removes from the empty tree, the
    in-order traversal is non-increasing (the rule of [deep_insert] sends
    values [>=] a node to its left). *)
Theorem run_inorder_sorted (ops : list op) :
  Sorted Z.ge (inorder (root (run ops))).
Proof. apply StronglySorted_Sorted, ordered_sorted, run_ordered. Qed.

(** C8: [remove(v)] on a tree holding no value equal to [v] changes no
    [contains] answer. *)
Theorem remove_absent_noop (t : bst) (v : Z) :
  ~ In v (inorder (root t)) ->
  forall x, contains (remove t v) x = contains t x.
Proof. intros _ x. by rewrite remove_id. Qed.

Lemma remove_absent_noop_witness :
  ~ In 999 (inorder (root (run [Insert 50; Insert 30; Insert 70])))
  /\ contains (remove (run [Insert 50; Insert 30; Insert 70]) 999) 30
     = contains (run [Insert 50; Insert 30; Insert 70]) 30.
Proof.
  assert (H : ~ In 999 (inorder (root (run [Insert 50; Insert 30; Insert 70]))))
    by (simpl; lia).
  split; [exact H|]. exact (remove_absent_noop _ 999 H 30).
Defined.

(** C9: each public operation completes within a recursion depth equal to
    the height of the tree (termination itself is that of the structural
    fixpoints). *)
Theorem operations_depth_bounded (t : bst) (v : Z) :
  insert_fuel (height (root t)) t v = Some (insert t v)
  /\ contains_fuel (height (root t)) t v = Some (contains t v)
  /\ remove_fuel (height (root t)) t v = Some (remove t v).
Proof.
  unfold insert_fuel, contains_fuel, remove_fuel, insert, contains, remove,
    deep_contains.
  destruct (root t) as [|i p l x r] eqn:E; [done|]. repeat split.
  - rewrite deep_insert_fuel_height; done.
  - rewrite deep_find_fuel_height; [|done]. simpl. by destruct (deep_find _ v).
Qed.

(** C10: [remove] leaves the whole state unchanged (root, every node's
    value, children and back-reference), hence every [contains] answer. *)
Theorem remove_unchanged (t : bst) (v : Z) :
  remove t v = t /\ forall x, contains (remove t v) x = contains t x.
Proof. rewrite remove_id. by split. Qed.

(** ** Further properties of [insert], [deep_find] and [contains] *)

Lemma deep_insert_inorder (f : loc) (n : node) (v : Z) :
  n <> Leaf -> Permutation (inorder (deep_insert f n v)) (v :: inorder n).
Proof.
  induction n as [|i p l IHl x r IHr]; intros Hn; [congruence|].
  cbn [deep_insert]. destruct (x <=? v).
  - destruct l as [|i' p' l' x' r'].
    + reflexivity.
    + cbn [inorder]. rewrite IHl by discriminate. reflexivity.
  - destruct r as [|i' p' l' x' r'].
    + cbn [inorder link]. simpl. solve_Permutation.
    + cbn [inorder]. rewrite IHr by discriminate. simpl. solve_Permutation.
Qed.

Lemma insert_inorder (t : bst) (v : Z) :
  Permutation (inorder (root (insert t v))) (v :: inorder (root t)).
Proof.
  destruct (root t) eqn:E.
  - unfold insert. rewrite E. reflexivity.
  - rewrite <- E, insert_nonempty by (rewrite E; discriminate). simpl.
    apply deep_insert_inorder. rewrite E; discriminate.
Qed.

Lemma deep_insert_root_unparented (f : loc) (n : node) (v : Z) :
  root_unparented n -> root_unparented (deep_insert f n v).
Proof.
  destruct n as [|j p l x r]; [done|]. cbn [deep_insert].
  destruct (x <=? v); [destruct l|destruct r]; done.
Qed.

Lemma insert_parent_ok (t : bst) (v : Z) :
  parent_ok (root t) -> parent_ok (root (insert t v)).
Proof.
  intros Hp. destruct (root t) eqn:E.
  - unfold insert. rewrite E. simpl. tauto.
  - rewrite <- E in Hp. rewrite insert_nonempty by (rewrite E; discriminate).
    by apply deep_insert_parent_ok.
Qed.

Lemma insert_root_unparented (t : bst) (v : Z) :
  root_unparented (root t) -> root_unparented (root (insert t v)).
Proof.
  intros Hp. destruct (root t) eqn:E.
  - unfold insert. rewrite E. done.
  - rewrite <- E in Hp. rewrite insert_nonempty by (rewrite E; discriminate).
    by apply deep_insert_root_unparented.
Qed.

Lemma fold_step_size (ops : list op) (t : bst) :
  length (inorder (root (fold_left step ops t))) = (length (inorder (root t)) + n_inserts ops)%nat
  /\ next (fold_left step ops t) = (next t + n_inserts ops)%nat.
Proof.
  revert t. induction ops as [|[v|v] ops IH]; intros t; simpl.
  - lia.
  - destruct (IH (insert t v)) as [H1 H2]. rewrite H1, H2.
    rewrite (Permutation_length (insert_inorder t v)). simpl.
    unfold insert. split; [lia|]. destruct (root t); simpl; lia.
  - rewrite remove_id. apply IH.
Qed.

(** X1: [deep_find] only ever returns a node of the tree it searched whose
    value equals the query, whatever the shape of that tree. *)
Theorem deep_find_sound (n m : node) (v : Z) :
  deep_find n v = Some m -> In m (subtrees n) /\ node_value m = Some v.
Proof.
  induction n as [|i p l IHl x r IHr]; [discriminate|]. cbn [deep_find].
  destruct (x =? v) eqn:Exv.
  - intros [= <-]. apply Z.eqb_eq in Exv. subst. simpl. auto.
  - destruct (x <? v).
    + destruct l as [|i' p' l' x' r']; [discriminate|].
      intros Hf. destruct (IHl Hf) as [Hin Hv]. split; [|done].
      right. apply in_app_iff. by left.
    + destruct r as [|i' p' l' x' r']; [discriminate|].
      intros Hf. destruct (IHr Hf) as [Hin Hv]. split; [|done].
      right. apply in_app_iff. by right.
Qed.

Lemma deep_find_sound_witness :
  deep_find (root (run [Insert 5; Insert 3; Insert 8])) 3
  = Some (Node 1%nat (Some 0%nat) Leaf 3 Leaf)
  /\ In (Node 1%nat (Some 0%nat) Leaf 3 Leaf) (subtrees (root (run [Insert 5; Insert 3; Insert 8])))
  /\ node_value (Node 1%nat (Some 0%nat) Leaf 3 Leaf) = Some 3.
Proof.
  assert (H : deep_find (root (run [Insert 5; Insert 3; Insert 8])) 3
              = Some (Node 1%nat (Some 0%nat) Leaf 3 Leaf)) by reflexivity.
  split; [exact H|]. exact (deep_find_sound _ _ 3 H).
Defined.

(** X2: [insert] keeps every stored value and adds exactly one copy of the
    new one: duplicates are stored again, the tree is a multiset. *)
Theorem insert_inorder_permutation (t : bst) (v : Z) :
  Permutation (inorder (root (insert t v))) (v :: inorder (root t)).
Proof. apply insert_inorder. Qed.

(** X3: on a reachable tree, [contains x] after [insert v] answers
    [x = v || contains x] before it. *)
Theorem contains_after_insert (ops : list op) (v x : Z) :
  contains (insert (run ops) v) x = (x =? v) || contains (run ops) x.
Proof.
  apply eq_true_iff_eq.
  rewrite orb_true_iff, Z.eqb_eq.
  rewrite (contains_correct (insert (run ops) v) x)
    by (apply insert_ordered, run_ordered).
  rewrite (contains_correct (run ops) x) by apply run_ordered.
  apply insert_elems.
Qed.

(** X4: every tree reachable from [Bst::empty()] is well linked: every child's
    back-reference is its parent's address, the root's back-reference is
    [None], and the addresses are distinct and below the allocator's next. *)
Theorem run_well_linked (ops : list op) :
  parent_ok (root (run ops)) /\ root_unparented (root (run ops)) /\ ids_ok (run ops).
Proof.
  unfold run. apply fold_step_ind.
  - intros t v (Hp & Hr & Hi). split; [by apply insert_parent_ok|].
    split; [by apply insert_root_unparented|by apply insert_ids_ok].
  - split; [done|]. split; [done|]. split; simpl; constructor.
Qed.

(** X5: a run holds exactly one node per [insert] call (no [remove] ever
    frees one), and each [insert] allocates exactly one address. *)
Theorem run_size (ops : list op) :
  length (inorder (root (run ops))) = n_inserts ops
  /\ next (run ops) = n_inserts ops.
Proof. unfold run. apply fold_step_size. Qed.

Lemma deep_insert_height (f : loc) (n : node) (v : Z) :
  (height (deep_insert f n v) <= S (height n))%nat.
Proof.
  induction n as [|i p l IHl x r IHr]; simpl; [lia|].
  destruct (x <=? v).
  - destruct l as [|i' p' l' x' r']; simpl; [lia|].
    simpl in IHl. lia.
  - destruct r as [|i' p' l' x' r']; simpl; [lia|].
    simpl in IHr. lia.
Qed.

Lemma insert_height (t : bst) (v : Z) :
  (height (root (insert t v)) <= S (height (root t)))%nat.
Proof.
  destruct (root t) eqn:E.
  - unfold insert. rewrite E. simpl. lia.
  - rewrite <- E, insert_nonempty by (rewrite E; discriminate). simpl.
    apply deep_insert_height.
Qed.

Lemma fold_step_height (ops : list op) (t : bst) :
  (height (root (fold_left step ops t)) <= height (root t) + n_inserts ops)%nat.
Proof.
  revert t. induction ops as [|[v|v] ops IH]; intros t; simpl; [lia| |].
  - specialize (IH (insert t v)). pose proof (insert_height t v). lia.
  - rewrite remove_id. apply IH.
Qed.

Lemma deep_insert_spine (f : loc) (n : node) (v : Z) :
  n <> Leaf -> left_spine n -> Forall (fun y => y <= v) (inorder n) ->
  left_spine (deep_insert f n v) /\ height (deep_insert f n v) = S (height n).
Proof.
  induction n as [|i p l IHl x r IHr]; intros Hn; [congruence|].
  intros [-> Hs] Hle. cbn [inorder] in Hle.
  apply Forall_app in Hle as [Hl Hx]. inversion Hx as [|? ? Hxv _]; subst.
  cbn [deep_insert]. apply Z.leb_le in Hxv. rewrite Hxv.
  destruct l as [|i' p' l' x' r'].
  - simpl. split; [tauto|lia].
  - destruct (IHl ltac:(discriminate) Hs Hl) as [Hs' Hh'].
    split; [split; [done|exact Hs']|]. cbn [height] in Hh' |- *. lia.
Qed.

Lemma fold_insert_spine (vs : list Z) (t : bst) :
  StronglySorted Z.le vs -> left_spine (root t) ->
  (forall y w, In y (inorder (root t)) -> In w vs -> y <= w) ->
  left_spine (root (fold_left step (map Insert vs) t))
  /\ height (root (fold_left step (map Insert vs) t)) = (height (root t) + length vs)%nat.
Proof.
  revert t. induction vs as [|v vs IH]; intros t Hsort Hs Hle; simpl; [split; [done|lia]|].
  inversion Hsort as [|? ? Hsort' Hv]; subst.
  assert (Hins : left_spine (root (insert t v))
                 /\ height (root (insert t v)) = S (height (root t))).
  { destruct (root t) eqn:E.
    - unfold insert. rewrite E. simpl. tauto.
    - rewrite <- E in Hs, Hle |- *.
      rewrite insert_nonempty by (rewrite E; discriminate). cbn [root].
      apply deep_insert_spine; [rewrite E; discriminate|done|].
      apply List.Forall_forall. intros y Hy. apply Hle; simpl; auto. }
  destruct Hins as [Hs1 Hh1].
  destruct (IH (insert t v) Hsort' Hs1) as [Hs2 Hh2].
  - intros y w Hy Hw. apply insert_elems in Hy as [->|Hy].
    + rewrite List.Forall_forall in Hv. auto.
    + apply Hle; simpl; auto.
  - split; [done|]. rewrite Hh2, Hh1. lia.
Qed.

Lemma fold_insert_inorder (vs : list Z) (t : bst) :
  Permutation (inorder (root (fold_left step (map Insert vs) t))) (vs ++ inorder (root t)).
Proof.
  revert t. induction vs as [|v vs IH]; intros t; simpl; [reflexivity|].
  rewrite IH, insert_inorder. solve_Permutation.
Qed.

(** X6: the tree never gets taller than the number of [insert] calls made. *)
Theorem run_height_bound (ops : list op) :
  (height (root (run ops)) <= n_inserts ops)%nat.
Proof. unfold run. apply fold_step_height. Qed.

(** X7: the tree is never rebalanced: inserting a non-decreasing sequence
    builds a chain of left children as tall as the number of values. *)
Theorem sorted_inserts_degenerate (vs : list Z) :
  Sorted Z.le vs ->
  left_spine (root (run (map Insert vs)))
  /\ height (root (run (map Insert vs))) = length vs.
Proof.
  intros Hs. apply fold_insert_spine; [|done|intros y w []].
  apply Sorted_StronglySorted; [intros ???; lia|exact Hs].
Qed.

Lemma sorted_inserts_degenerate_witness :
  Sorted Z.le [1; 2; 2; 3]
  /\ left_spine (root (run (map Insert [1; 2; 2; 3])))
  /\ height (root (run (map Insert [1; 2; 2; 3]))) = length [1; 2; 2; 3].
Proof.
  assert (H : Sorted Z.le [1; 2; 2; 3]) by (repeat constructor; lia).
  split; [exact H|]. exact (sorted_inserts_degenerate _ H).
Defined.

(** X8: the in-order traversal depends only on the multiset of inserted
    values, not on the order of the [insert] calls. *)
Theorem inorder_insertion_order_independent (vs ws : list Z) :
  Permutation vs ws ->
  inorder (root (run (map Insert vs))) = inorder (root (run (map Insert ws))).
Proof.
  intros Hp. apply (StronglySorted_unique_strong Z.ge).
  - intros; lia.
  - apply ordered_sorted, run_ordered.
  - apply ordered_sorted, run_ordered.
  - unfold run. rewrite !fold_insert_inorder. simpl. by rewrite !app_nil_r, Hp.
Qed.

Lemma inorder_insertion_order_independent_witness :
  Permutation [3; 1; 2] [1; 2; 3]
  /\ inorder (root (run (map Insert [3; 1; 2])))
     = inorder (root (run (map Insert [1; 2; 3]))).
Proof.
  assert (H : Permutation [3; 1; 2] [1; 2; 3]) by solve_Permutation.
  split; [exact H|]. exact (inorder_insertion_order_independent _ _ H).
Defined.

End Tree.

Module Heap.

(** [Node<V>] as a heap cell: [parent] is a [Weak] (an address that may no
    longer be allocated), [left] and [right] are strong [Rc] links. *)
Record node : Type := mk_node {
  parent : option loc; left : option loc; right : option loc; value : Z }.

(** [Bst<V> { root }] *)
Record bst : Type := mk_bst { root : option loc }.

(** The live [Rc<RefCell<Node>>] cells. *)
Abbreviation heap := (gmap loc node).

Definition set_parent (n : node) (p : option loc) : node :=
  {| parent := p; left := left n; right := right n; value := value n |}.
Definition set_left (n : node) (c : option loc) : node :=
  {| parent := parent n; left := c; right := right n; value := value n |}.
Definition set_right (n : node) (c : option loc) : node :=
  {| parent := parent n; left := left n; right := c; value := value n |}.

(** Outcome of a call: it returns with a new state, or panics with a
    message; [Invalid] stands for inputs the Rust types exclude (a strong
    [Rc] handle whose cell is not allocated). *)
Inductive outcome : Type :=
| Done (t : bst) (h : heap)
| Panic (msg : string)
| Invalid.

Definition orphan_msg : string :=
  "Weird Bst structure detected. Found an orphan node".

(** Message of [RefCell::borrow_mut] on a cell already borrowed. *)
Definition borrow_msg : string := "already borrowed: BorrowMutError".

(** Lines 188-192 of [shift_nodes]: [node_b.parent = Some(downgrade(node_a_parent))].
    [node_a] and [node_a_parent] are still mutably borrowed here. *)
Definition fix_node_b (t : bst) (h : heap) (a w : loc) (ob : option loc) : outcome :=
  match ob with
  | None => Done t h
  | Some b =>
      if decide (b = a) then Panic borrow_msg
      else if decide (b = w) then Panic borrow_msg
      else match h !! b with
           | None => Invalid
           | Some nb => Done t (<[b := set_parent nb (Some w)]> h)
           end
  end.

(** [shift_nodes(bst, node_a, o_node_b)], statement by statement. *)
Definition shift_nodes (t : bst) (h : heap) (a : loc) (ob : option loc) : outcome :=
  match h !! a with
  | None => Invalid
  | Some na =>                                    (* node_a.borrow_mut() *)
      match parent na with
      | None => Done {| root := ob |} h            (* root.take() / root.replace(b) *)
      | Some w =>
          match h !! w with                        (* w_node_a_parent.upgrade() *)
          | None => Panic orphan_msg
          | Some np =>
              if decide (w = a) then Panic borrow_msg   (* node_a_parent.borrow_mut() *)
              else match left np with
                   | Some l =>
                       if decide (a = l)            (* Rc::ptr_eq(node_a, left) *)
                       then Done t (<[w := set_left np ob]> h)
                       else fix_node_b t h a w ob
                   | None => Done t (<[w := set_right np ob]> h)
                   end
          end
      end
  end.

(** Every [Weak] parent reference of a live cell resolves. *)
Definition parents_resolve (h : heap) : Prop :=
  map_Forall (fun _ nx => match parent nx with
                          | None => True
                          | Some w => is_Some (h !! w)
                          end) h.

(** A parent [P] (address 1) with a left child [L] (2) and a right child
    [A] (3). *)
Definition h_two_children : heap :=
  <[1%nat := {| parent := None; left := Some 2%nat; right := Some 3%nat; value := 50 |}]>
  (<[2%nat := {| parent := Some 1%nat; left := None; right := None; value := 60 |}]>
  (<[3%nat := {| parent := Some 1%nat; left := None; right := None; value := 40 |}]> ∅)).

(** A root [A] (1) with a right child [B] (2). *)
Definition h_root_right : heap :=
  <[1%nat := {| parent := None; left := None; right := Some 2%nat; value := 50 |}]>
  (<[2%nat := {| parent := Some 1%nat; left := None; right := None; value := 40 |}]> ∅).

(** [P] (1) with left child [A] (2), whose right child is [B] (3). *)
Definition h_left_chain : heap :=
  <[1%nat := {| parent := None; left := Some 2%nat; right := None; value := 50 |}]>
  (<[2%nat := {| parent := Some 1%nat; left := None; right := Some 3%nat; value := 60 |}]>
  (<[3%nat := {| parent := Some 2%nat; left := None; right := None; value := 70 |}]> ∅)).

Lemma borrow_msg_not_orphan : borrow_msg <> orphan_msg.
Proof. unfold borrow_msg, orphan_msg. discriminate. Qed.

Lemma fix_node_b_not_orphan (t : bst) (h : heap) (a w : loc) (ob : option loc) :
  fix_node_b t h a w ob <> Panic orphan_msg.
Proof.
  pose proof borrow_msg_not_orphan.
  unfold fix_node_b. destruct ob as [b|]; [|discriminate].
  destruct (decide (b = a)); [congruence|].
  destruct (decide (b = w)); [congruence|].
  destruct (h !! b); discriminate.
Qed.

(** ** Claims about [shift_nodes] *)

(** C3 (code_bug): the [else] of line 178 belongs to [if let Some(..) =
    parent.left], not to the [ptr_eq] test, so when [A] is the right child
    of a parent that also has a left child, no slot is overwritten; when [A]
    is the left child, the left slot is. *)
Theorem shift_nodes_right_slot_untouched :
  shift_nodes {| root := Some 1%nat |} h_two_children 3%nat None
  = Done {| root := Some 1%nat |} h_two_children
  /\ option_map right (h_two_children !! 1%nat) = Some (Some 3%nat)
  /\ (exists h', shift_nodes {| root := Some 1%nat |} h_two_children 2%nat None
                 = Done {| root := Some 1%nat |} h'
      /\ option_map left (h' !! 1%nat) = Some None).
Proof.
  split; [reflexivity|]. split; [reflexivity|].
  eexists. split; reflexivity.
Qed.

(** C4 (code_bug): every branch that rewrites a slot returns before lines
    188-192, so [B]'s back-reference is never updated: when [A] is the root
    it still names [A], and when [A] is a left child it still names [A]
    rather than [A]'s parent. *)
Theorem shift_nodes_keeps_b_parent :
  shift_nodes {| root := Some 1%nat |} h_root_right 1%nat (Some 2%nat)
  = Done {| root := Some 2%nat |} h_root_right
  /\ option_map parent (h_root_right !! 2%nat) = Some (Some 1%nat)
  /\ (exists h', shift_nodes {| root := Some 1%nat |} h_left_chain 2%nat (Some 3%nat)
                 = Done {| root := Some 1%nat |} h'
      /\ option_map left (h' !! 1%nat) = Some (Some 3%nat)
      /\ option_map parent (h' !! 3%nat) = Some (Some 2%nat)).
Proof.
  split; [reflexivity|]. split; [reflexivity|].
  eexists. split; [reflexivity|]. split; reflexivity.
Qed.

(** C5: [shift_nodes] panics with the orphan message exactly when [A]'s
    [Weak] parent does not resolve; it never returns a state in that case,
    and when every parent reference of the heap resolves this panic is
    unreachable. *)
Theorem shift_nodes_orphan_panic (t : bst) (h : heap) (a : loc) (ob : option loc) :
  (shift_nodes t h a ob = Panic orphan_msg <->
   exists na w, h !! a = Some na /\ parent na = Some w /\ h !! w = None)
  /\ (parents_resolve h -> shift_nodes t h a ob <> Panic orphan_msg).
Proof.
  assert (Hiff : shift_nodes t h a ob = Panic orphan_msg <->
     exists na w, h !! a = Some na /\ parent na = Some w /\ h !! w = None).
  { pose proof borrow_msg_not_orphan as Hb. unfold shift_nodes. split.
    - destruct (h !! a) as [na|]; [|discriminate].
      destruct (parent na) as [w|] eqn:Ep; [|discriminate].
      destruct (h !! w) as [np|] eqn:Ew; [|eauto].
      destruct (decide (w = a)); [congruence|].
      destruct (left np) as [l|]; [|discriminate].
      destruct (decide (a = l)); [discriminate|].
      intros H; exfalso; exact (fix_node_b_not_orphan _ _ _ _ _ H).
    - intros (na & w & -> & -> & ->). reflexivity. }
  split; [exact Hiff|].
  intros Hres Hpanic. apply Hiff in Hpanic as (na & w & Ha & Hp & Hw).
  pose proof (map_Forall_lookup_1 _ _ _ _ Hres Ha) as Hr. simpl in Hr.
  rewrite Hp, Hw in Hr. by destruct Hr.
Qed.

Lemma shift_nodes_orphan_panic_witness :
  parents_resolve h_two_children
  /\ shift_nodes {| root := Some 1%nat |} h_two_children 3%nat None <> Panic orphan_msg.
Proof.
  assert (H : parents_resolve h_two_children) by (unfold parents_resolve, h_two_children; repeat apply map_Forall_insert_2; try apply map_Forall_empty; simpl; try exact I; eexists; reflexivity).
  split; [exact H|].
  exact (proj2 (shift_nodes_orphan_panic {| root := Some 1%nat |} h_two_children
                  3%nat None) H).
Defined.

(** ** Further properties of [shift_nodes] *)







(** X11: when [A] is, by address, the left child of a live parent other
    than itself, [shift_nodes] overwrites exactly that left slot with [B]
    and changes nothing else: the root slot and [B]'s own back-reference
    are left as they were. *)
Theorem shift_nodes_left_child (t : bst) (h : heap) (a w : loc) (na np : node)
    (ob : option loc) :
  h !! a = Some na -> parent na = Some w -> h !! w = Some np -> w <> a ->
  left np = Some a ->
  shift_nodes t h a ob = Done t (<[w := set_left np ob]> h).
Proof.
  intros Ha Hp Hw Hne Hl. unfold shift_nodes.
  rewrite Ha, Hp, Hw, Hl.
  destruct (decide (w = a)); [congruence|].
  by destruct (decide (a = a)).
Qed.

Lemma shift_nodes_left_child_witness :
  h_left_chain !! 2%nat
  = Some {| parent := Some 1%nat; left := None; right := Some 3%nat; value := 60 |}
  /\ shift_nodes {| root := Some 1%nat |} h_left_chain 2%nat (Some 3%nat)
     = Done {| root := Some 1%nat |}
         (<[1%nat := set_left {| parent := None; left := Some 2%nat; right := None;
                                 value := 50 |} (Some 3%nat)]> h_left_chain).
Proof.
  assert (Ha : h_left_chain !! 2%nat
    = Some {| parent := Some 1%nat; left := None; right := Some 3%nat; value := 60 |})
    by reflexivity.
  split; [exact Ha|].
  apply (shift_nodes_left_child _ _ _ 1%nat _
           {| parent := None; left := Some 2%nat; right := None; value := 50 |}
           _ Ha); [reflexivity|reflexivity|lia|reflexivity].
Defined.

End Heap.
